(** * jenkins-js-logging: hierarchical, per-category log levels

    A shallow embedding of [index.js] (the console fallbacks, the [Level]
    enum, [setLogLevel], the [Logger] constructor and its methods,
    [logArgs]) together with the key-value namespace it stores its
    configuration in, and the properties of the package stated over that
    embedding. *)

From Stdlib Require Import ZArith Lia Ascii String.
From stdpp Require Import gmap strings list pretty.

Open Scope string_scope.

(** ** The Level enum

    [Level.DEBUG] ... [Level.ERROR] are five object literals hung on the
    function [Level]; the code compares them by identity ([!==]) and reads
    their [id] and [precedence] fields. *)

Inductive Level := DEBUG | LOG | INFO | WARN | ERROR.

Definition id (l : Level) : string :=
  match l with
  | DEBUG => "DEBUG" | LOG => "LOG" | INFO => "INFO"
  | WARN => "WARN" | ERROR => "ERROR"
  end.

Definition precedence (l : Level) : Z :=
  match l with
  | DEBUG => 0 | LOG => 1 | INFO => 2 | WARN => 3 | ERROR => 4
  end%Z.

#[global] Instance Level_eq_dec : EqDecision Level.
Proof. solve_decision. Defined.

(** ** JavaScript values

    Only what the code can tell apart is kept.  An object other than the
    five level constants is given by the string it converts to and by its
    [precedence] field, when that field holds an integer; the functions
    and objects the runtime hangs on every function are of that kind. *)

Record object := Obj { obj_string : string; obj_precedence : option Z }.

Inductive value :=
| VUndefined
| VNull
| VBool (b : bool)
| VNum (n : Z)        (* an integral number, |n| <= 2^53 - 1 *)
| VStr (s : string)
| VLevel (l : Level)  (* a reference to Level.DEBUG, ..., Level.ERROR *)
| VObject (o : object).

(** [!v] is [negb (truthy v)]. *)
Definition truthy (v : value) : bool :=
  match v with
  | VUndefined | VNull => false
  | VBool b => b
  | VNum n => negb (n =? 0)%Z
  | VStr s => negb (String.eqb s "")
  | VLevel _ | VObject _ => true
  end.

(** The string a value becomes in a concatenation ['...' + v] or as a
    property key. *)
Definition to_string (v : value) : string :=
  match v with
  | VUndefined => "undefined"
  | VNull => "null"
  | VBool true => "true"
  | VBool false => "false"
  | VNum n => pretty n
  | VStr s => s
  | VLevel _ => "[object Object]"
  | VObject o => obj_string o
  end.

(** [typeof v === 'string'] *)
Definition is_string (v : value) : bool :=
  match v with VStr _ => true | _ => false end.

(** [s] between double quotes. *)
Definition quoted (s : string) : string :=
  let q := String (Ascii.ascii_of_nat 34) EmptyString in q ++ s ++ q.

(** Exceptions, and the outcome of a call. *)
Inductive exn :=
| Error (message : string)
| TypeError.

Inductive outcome (A : Type) :=
| Return (a : A)
| Throw (e : exn).
Arguments Return {A} a.
Arguments Throw {A} e.

(** [v.precedence]: a [TypeError] on [undefined] and [null]; [None] is
    the value [undefined] of a missing property. *)
Definition get_precedence (v : value) : outcome (option Z) :=
  match v with
  | VUndefined | VNull => Throw TypeError
  | VLevel l => Return (Some (precedence l))
  | VObject o => Return (obj_precedence o)
  | VBool _ | VNum _ | VStr _ => Return None
  end.

(** [p >= q] for a number [p] and a [q] that is a number or [undefined]
    ([undefined] converts to NaN, and every comparison with NaN is false). *)
Definition ge_number (p : Z) (q : option Z) : bool :=
  match q with
  | Some q => (q <=? p)%Z
  | None => false
  end.

(** ** Property reads [Level[key]]

    [Level] is a function object: besides the five enum members assigned
    in the source it answers for the members every function has, its own
    ([name], [length], [prototype]) and those inherited from
    [Function.prototype] and [Object.prototype].  The table lists the
    members the language standard names; any other key reads [undefined]. *)

Definition native (name : string) : value :=
  VObject (Obj ("function " ++ name ++ "() { [native code] }") None).

Definition function_members : list (string * value) :=
  [ ("name", VStr "Level");
    ("length", VNum 0);
    ("prototype", VObject (Obj "[object Object]" None));
    ("constructor", native "Function");
    ("apply", native "apply");
    ("bind", native "bind");
    ("call", native "call");
    ("toString", native "toString");
    ("hasOwnProperty", native "hasOwnProperty");
    ("isPrototypeOf", native "isPrototypeOf");
    ("propertyIsEnumerable", native "propertyIsEnumerable");
    ("toLocaleString", native "toLocaleString");
    ("valueOf", native "valueOf");
    ("__proto__", native "");
    ("__defineGetter__", native "__defineGetter__");
    ("__defineSetter__", native "__defineSetter__");
    ("__lookupGetter__", native "__lookupGetter__");
    ("__lookupSetter__", native "__lookupSetter__") ].

Definition level_of_id (key : string) : option Level :=
  if String.eqb key "DEBUG" then Some DEBUG
  else if String.eqb key "LOG" then Some LOG
  else if String.eqb key "INFO" then Some INFO
  else if String.eqb key "WARN" then Some WARN
  else if String.eqb key "ERROR" then Some ERROR
  else None.

Fixpoint assoc (key : string) (l : list (string * value)) : option value :=
  match l with
  | [] => None
  | (k, v) :: l => if String.eqb key k then Some v else assoc key l
  end.

Definition Level_get (key : value) : value :=
  let k := to_string key in
  match level_of_id k with
  | Some l => VLevel l
  | None => default VUndefined (assoc k function_members)
  end.

(** ** Dot parents of a category name *)

(** The text before the last dot of [s], when [s] has a dot. *)
Fixpoint dot_parent (s : string) : option string :=
  match s with
  | EmptyString => None
  | String c r =>
      match dot_parent r with
      | Some p => Some (String c p)
      | None => if Ascii.eqb c "."%char then Some EmptyString else None
      end
  end.

(** The proper dot-prefixes of [s], shortest first. *)
Fixpoint dot_prefixes (s : string) : list string :=
  match s with
  | EmptyString => []
  | String c r =>
      (if Ascii.eqb c "."%char then [EmptyString] else []) ++
      map (String c) (dot_prefixes r)
  end.

(** [s], then [s] without its last dot-segment, and so on. *)
Definition ancestors (s : string) : list string :=
  s :: rev (dot_prefixes s).

(** ** The storage namespace [categories]

    [jenkinsNS.subspace('logging').subspace('categories')] comes from the
    package [@jenkins-cd/storage]; a namespace is a view of the browser's
    key-value storage in which a name stands for the key
    [<namespace>:<name>], built by concatenation, so that [set] takes a
    name which is not a string through its string conversion.  The
    namespace is kept as the map from names to the strings stored under
    them. *)

(** The blank sentinel, as the test suite reads it back
    (spec/loglevels-spec.js:57). *)
Definition BLANK : string := "_".

(** Modelled from the spec: the [set(key, value)] operation of the
    storage namespace, which is not part of this package. *)
Definition storage_set (name value : string) (st : gmap string string)
  : gmap string string :=
  <[name := value]> st.

(** Modelled from the spec: the plain [get(key)] of the storage
    namespace; [None] is [undefined]. *)
Definition storage_get (name : string) (st : gmap string string)
  : option string :=
  st !! name.

(** A name is unset when nothing or the blank sentinel is stored for it. *)
Definition unset (o : option string) : bool :=
  match o with
  | None => true
  | Some v => String.eqb v BLANK
  end.

(** Modelled from the spec: [get(key, {checkDotParent: true})] of the
    storage namespace (section 4.2).  The names are looked up in turn; an
    unset one gets the blank sentinel written back and the walk goes on
    with the next; the first value found is returned, [None] when the
    names are exhausted. *)
Fixpoint dot_parent_walk (names : list string) (st : gmap string string)
  : option string * gmap string string :=
  match names with
  | [] => (None, st)
  | n :: rest =>
      if unset (st !! n)
      then dot_parent_walk rest (storage_set n BLANK st)
      else (st !! n, st)
  end.

Definition storage_get_checkDotParent (name : string) (st : gmap string string)
  : option string * gmap string string :=
  dot_parent_walk (ancestors name) st.

(** ** Loggers, the console, and the state of the page *)

Record Logger := { category : value; logLevel : value }.

Inductive console_function := c_debug | c_log | c_info | c_warn | c_error.

Record console_call := { fn : console_function; passed : list value }.

(** The storage namespace, the calls received by the console (oldest
    first) and the Logger objects constructed so far; a Logger is referred
    to by its position in [heap]. *)
Record world := {
  categories : gmap string string;
  console : list console_call;
  heap : list Logger
}.

Definition M (A : Type) : Type := world -> outcome A * world.

#[global] Instance M_ret : MRet M := fun A a w => (Return a, w).

#[global] Instance M_bind : MBind M := fun A B k m w =>
  match m w with
  | (Return a, w') => k a w'
  | (Throw e, w') => (Throw e, w')
  end.

Definition throw {A} (e : exn) : M A := fun w => (Throw e, w).
Definition lift {A} (o : outcome A) : M A := fun w => (o, w).

(** [categories.set(name, value)] *)
Definition categories_set (name : value) (v : string) : M unit :=
  fun w =>
    (Return tt,
     {| categories := storage_set (to_string name) v (categories w);
        console := console w; heap := heap w |}).

(** Modelled from the spec: [categories.get(name, {checkDotParent: true})]
    as index.js:99 calls it on the storage namespace.  The dot-parent walk
    splits the name as a string (sections 1 and 4.2 of the specification);
    a name that is not a string has nothing to split, which in JavaScript
    is a [TypeError]: it is raised here before anything is read or
    written. *)
Definition categories_get_checkDotParent (name : value) : M value :=
  fun w =>
    match name with
    | VStr s =>
        let (found, st) := storage_get_checkDotParent s (categories w) in
        (Return (from_option VStr VUndefined found),
         {| categories := st; console := console w; heap := heap w |})
    | _ => (Throw TypeError, w)
    end.

(** ** setLogLevel (index.js:74)

    [level !== Level.X] compares references.  Past the guard [level] is
    one of the five constants, so the read [level.id] is the [id] of a
    Level; the last branch is never taken. *)

Definition is_level (v : value) (l : Level) : bool :=
  match v with
  | VLevel l' => bool_decide (l' = l)
  | _ => false
  end.

Definition setLogLevel (category level : value) : M unit :=
  if negb (is_level level ERROR) && negb (is_level level WARN)
     && negb (is_level level INFO) && negb (is_level level LOG)
     && negb (is_level level DEBUG)
  then throw (Error ("Unexpected arg type for " ++ quoted "level" ++
                     ". Expected one of the predefined Level enums."))
  else
    match level with
    | VLevel l => categories_set category (id l)
    | _ => throw TypeError
    end.

(** ** The Logger constructor (index.js:93)

    The first assignment [this.logLevel = Level[logLevelId]] is overwritten
    on both branches of the test that follows it. *)

Definition is_undefined (v : value) : bool :=
  match v with VUndefined => true | _ => false end.

Definition Logger_new (category : value) : M Logger :=
  if is_undefined category
  then throw (Error ("Cannot create logger. Log " ++ quoted "category" ++
                     " name must be specified."))
  else
    logLevelId ← categories_get_checkDotParent category;
    if negb (truthy logLevelId) || negb (truthy (Level_get logLevelId))
    then
      categories_set category (id ERROR);;
      mret {| category := category; logLevel := VLevel ERROR |}
    else
      mret {| category := category; logLevel := Level_get logLevelId |}.

(** ** The [arguments] object

    [arguments] is array-like: indexed slots and a [length] field that an
    assignment to a slot leaves alone. *)

Record arguments_object := { slots : list value; len : nat }.

Definition arguments_of (passed : list value) : arguments_object :=
  {| slots := passed; len := length passed |}.

(** [a[i]] *)
Definition get_index (a : arguments_object) (i : nat) : value :=
  default VUndefined (slots a !! i).

(** [l[i] = v] on the slots: in range the slot is replaced, past the end
    the slots grow (the gap, if any, reads [undefined]). *)
Definition put_slot (i : nat) (v : value) (l : list value) : list value :=
  if (i <? length l)%nat then <[i := v]> l
  else l ++ replicate (i - length l) VUndefined ++ [v].

(** [a[i] = v] *)
Definition put_index (i : nat) (v : value) (a : arguments_object)
  : arguments_object :=
  {| slots := put_slot i v (slots a); len := len a |}.

(** What [f.apply(thisArg, a)] passes to [f]: [a[0]], ..., [a[a.length-1]]. *)
Definition apply_list (a : arguments_object) : list value :=
  map (get_index a) (seq 0 (len a)).

(** ** logArgs (index.js:231) *)

Definition logArgs (level : Level) (category : value) (callArgs : arguments_object)
  : arguments_object :=
  if (len callArgs =? 0)%nat then callArgs
  else
    let callArgsCopy := map (get_index callArgs) (seq 0 (len callArgs)) in
    let prefix := "[" ++ id level ++ " - " ++ to_string category ++ "] " in
    let '(prefix, callArgsCopy) :=
      match callArgsCopy with
      | VStr s :: rest => (prefix ++ s, rest)
      | _ => (prefix, callArgsCopy)
      end in
    let callArgs := put_index 0 (VStr prefix) callArgs in
    fold_left
      (fun callArgs ii =>
         put_index (ii + 1) (default VUndefined (callArgsCopy !! ii)) callArgs)
      (seq 0 (length callArgsCopy)) callArgs.

(** ** The methods of a Logger (index.js:110) *)

Definition isEnabled (this : Logger) (level : Level) : outcome bool :=
  match get_precedence (logLevel this) with
  | Return q => Return (ge_number (precedence level) q)
  | Throw e => Throw e
  end.

Definition isDebugEnabled (this : Logger) : outcome bool := isEnabled this DEBUG.
Definition isLogEnabled (this : Logger) : outcome bool := isEnabled this LOG.
Definition isInfoEnabled (this : Logger) : outcome bool := isEnabled this INFO.
Definition isWarnEnabled (this : Logger) : outcome bool := isEnabled this WARN.

(** [console.<f>.apply(console, a)]; where the environment lacks
    [console.<f>], index.js:10-21 has put [console.log] in its place. *)
Definition console_apply (f : console_function) (a : arguments_object) : M unit :=
  fun w =>
    (Return tt,
     {| categories := categories w;
        console := console w ++ [{| fn := f; passed := apply_list a |}];
        heap := heap w |}).

Definition debug (this : Logger) (arguments : list value) : M unit :=
  enabled ← lift (isEnabled this DEBUG);
  if enabled : bool
  then console_apply c_debug (logArgs DEBUG (category this) (arguments_of arguments))
  else mret tt.

Definition log (this : Logger) (arguments : list value) : M unit :=
  enabled ← lift (isEnabled this LOG);
  if enabled : bool
  then console_apply c_log (logArgs LOG (category this) (arguments_of arguments))
  else mret tt.

Definition info (this : Logger) (arguments : list value) : M unit :=
  enabled ← lift (isEnabled this INFO);
  if enabled : bool
  then console_apply c_info (logArgs INFO (category this) (arguments_of arguments))
  else mret tt.

Definition warn (this : Logger) (arguments : list value) : M unit :=
  enabled ← lift (isEnabled this WARN);
  if enabled : bool
  then console_apply c_warn (logArgs WARN (category this) (arguments_of arguments))
  else mret tt.

(** Error messages are always logged: there is no check. *)
Definition error (this : Logger) (arguments : list value) : M unit :=
  console_apply c_error (logArgs ERROR (category this) (arguments_of arguments)).

(** ** exports.logger (index.js:266) *)

(** The [n]-th parameter of a call; a parameter not passed is [undefined]. *)
Definition parameter (n : nat) (arguments : list value) : value :=
  default VUndefined (arguments !! n).

Definition allocate (l : Logger) : M nat :=
  fun w =>
    (Return (length (heap w)),
     {| categories := categories w; console := console w;
        heap := heap w ++ [l] |}).

Definition logger (arguments : list value) : M nat :=
  this ← Logger_new (parameter 0 arguments);
  allocate this.

(** ** The package as seen by its callers

    A call of an exported function or of a method of a Logger held by
    reference, and a write to the namespace handed out by
    [getCategoriesStorageNS] (what a storage inspector does). *)

Inductive call :=
| call_setLogLevel (arguments : list value)
| call_logger (arguments : list value)
| call_isEnabled (this : nat) (level : Level)
| call_isDebugEnabled (this : nat)
| call_isLogEnabled (this : nat)
| call_isInfoEnabled (this : nat)
| call_isWarnEnabled (this : nat)
| call_debug (this : nat) (arguments : list value)
| call_log (this : nat) (arguments : list value)
| call_info (this : nat) (arguments : list value)
| call_warn (this : nat) (arguments : list value)
| call_error (this : nat) (arguments : list value)
| call_storage_set (name value : string).

Inductive answer :=
| a_undefined
| a_bool (b : bool)
| a_logger (ref : nat).

(** The object behind a reference; a method call through anything else
    is a [TypeError]. *)
Definition deref (ref : nat) : M Logger :=
  fun w =>
    match heap w !! ref with
    | Some l => (Return l, w)
    | None => (Throw TypeError, w)
    end.

Definition run (c : call) : M answer :=
  match c with
  | call_setLogLevel arguments =>
      setLogLevel (parameter 0 arguments) (parameter 1 arguments);; mret a_undefined
  | call_logger arguments => ref ← logger arguments; mret (a_logger ref)
  | call_isEnabled r level => this ← deref r; b ← lift (isEnabled this level); mret (a_bool b)
  | call_isDebugEnabled r => this ← deref r; b ← lift (isDebugEnabled this); mret (a_bool b)
  | call_isLogEnabled r => this ← deref r; b ← lift (isLogEnabled this); mret (a_bool b)
  | call_isInfoEnabled r => this ← deref r; b ← lift (isInfoEnabled this); mret (a_bool b)
  | call_isWarnEnabled r => this ← deref r; b ← lift (isWarnEnabled this); mret (a_bool b)
  | call_debug r arguments => this ← deref r; debug this arguments;; mret a_undefined
  | call_log r arguments => this ← deref r; log this arguments;; mret a_undefined
  | call_info r arguments => this ← deref r; info this arguments;; mret a_undefined
  | call_warn r arguments => this ← deref r; warn this arguments;; mret a_undefined
  | call_error r arguments => this ← deref r; error this arguments;; mret a_undefined
  | call_storage_set name value =>
      categories_set (VStr name) value;; mret a_undefined
  end.

(** A script: calls made one after the other, stopping at the first
    exception. *)
Fixpoint run_all (cs : list call) : M unit :=
  match cs with
  | [] => mret tt
  | c :: cs => run c;; run_all cs
  end.

Definition empty_world : world :=
  {| categories := ∅; console := []; heap := [] |}.

(** ** Resolution, as a function of the stored values *)

(** The value of the first name that is set, if any. *)
Fixpoint nearest_set (names : list string) (st : gmap string string)
  : option string :=
  match names with
  | [] => None
  | n :: rest => if unset (st !! n) then nearest_set rest st else st !! n
  end.

(** The names found unset before the first one that is set. *)
Fixpoint unset_queried (names : list string) (st : gmap string string)
  : list string :=
  match names with
  | [] => []
  | n :: rest => if unset (st !! n) then n :: unset_queried rest st else []
  end.

(** The level named by the nearest non-blank value, [ERROR] when there is
    none or it names no level. *)
Definition nearest_set_level (c : string) (st : gmap string string) : Level :=
  match nearest_set (ancestors c) st with
  | Some v => default ERROR (level_of_id v)
  | None => ERROR
  end.

(** The resolution as the specification words it (section 3): the level
    of the nearest ancestor whose stored value is a level id, [ERROR] when
    no ancestor has one. *)
Fixpoint nearest_valid (names : list string) (st : gmap string string)
  : option Level :=
  match names with
  | [] => None
  | n :: rest =>
      match st !! n ≫= level_of_id with
      | Some l => Some l
      | None => nearest_valid rest st
      end
  end.

Definition spec_resolved_level (c : string) (st : gmap string string) : Level :=
  default ERROR (nearest_valid (ancestors c) st).

(** What the constructor makes of the value the storage hands back. *)
Definition level_for (logLevelId : value) : value :=
  if negb (truthy logLevelId) || negb (truthy (Level_get logLevelId))
  then VLevel ERROR
  else Level_get logLevelId.

(** The prefix [logArgs] builds. *)
Definition prefix_of_call (level : Level) (category : value) : string :=
  "[" ++ id level ++ " - " ++ to_string category ++ "] ".

(** ** States and scripts used in the examples *)

Definition inherited_setup : list call :=
  [ call_setLogLevel [VStr "a"; VLevel WARN];
    call_setLogLevel [VStr "a.b"; VLevel INFO];
    call_setLogLevel [VStr "a.b.c"; VLevel DEBUG] ].

(** The storage after the set-up of the test suite. *)
Definition inherited_world : world :=
  {| categories := <["a" := "WARN"]> (<["a.b" := "INFO"]> (<["a.b.c" := "DEBUG"]> ∅));
     console := []; heap := [] |}.

(** A spurious value on [a.b], a valid level on [a]. *)
Definition shadowed_world : world :=
  {| categories := <["a.b" := "FOO"]> (<["a" := "DEBUG"]> ∅);
     console := []; heap := [] |}.

(** A Logger for [a.b], constructed when nothing was configured. *)
Definition stale_world : world :=
  {| categories := <["a.b" := "ERROR"]> ∅; console := [];
     heap := [{| category := VStr "a.b"; logLevel := VLevel ERROR |}] |}.

(** The name of a member of every function, stored as a level. *)
Definition member_world : world :=
  {| categories := <["a" := "name"]> ∅; console := []; heap := [] |}.

(** ** The Level function itself (index.js:32) *)

Definition Level_construct : M unit :=
  throw (Error ("Unexpected construction of the Level class. " ++
                "Please use the static property enums i.e. Level.DEBUG etc.")).

(** ** The console of the environment (index.js:10)

    Each property of [console] holds a native function or is missing.
    On loading, the package gives [debug], [info], [warn] and [error],
    where missing, what [console.log] holds. *)

#[global] Instance console_function_eq_dec : EqDecision console_function.
Proof. solve_decision. Defined.

Definition console_object : Type := console_function → option console_function.

(** [console.f = v] *)
Definition assign (f : console_function) (v : option console_function)
    (console : console_object) : console_object :=
  fun g => if decide (g = f) then v else console g.

(** [if (!console.f) { console.f = console.log; }] *)
Definition fallback_to_log (f : console_function) (console : console_object)
  : console_object :=
  match console f with
  | None => assign f (console c_log) console
  | Some _ => console
  end.

Definition install_console_fallbacks (console : console_object) : console_object :=
  let console := fallback_to_log c_debug console in
  let console := fallback_to_log c_info console in
  let console := fallback_to_log c_warn console in
  fallback_to_log c_error console.

(** A console that has [log] only. *)
Definition bare_console : console_object :=
  fun f => match f with c_log => Some c_log | _ => None end.

(** ** The logging method of each level *)

Definition method (m : Level) : Logger → list value → M unit :=
  match m with
  | DEBUG => debug | LOG => log | INFO => info | WARN => warn | ERROR => error
  end.

Definition console_of (m : Level) : console_function :=
  match m with
  | DEBUG => c_debug | LOG => c_log | INFO => c_info
  | WARN => c_warn | ERROR => c_error
  end.

Definition log_call (m : Level) : nat → list value → call :=
  match m with
  | DEBUG => call_debug | LOG => call_log | INFO => call_info
  | WARN => call_warn | ERROR => call_error
  end.

(** The world after one more call received by the console. *)
Definition logged (f : console_function) (received : list value) (w : world)
  : world :=
  {| categories := categories w;
     console := console w ++ [{| fn := f; passed := received |}];
     heap := heap w |}.

(** * Properties *)

(** ** The test suite, replayed (spec/loglevels-spec.js) *)

Example test_default_log_level :
  heap (snd (run (call_logger [VStr "a.b.c"]) empty_world))
  = [{| category := VStr "a.b.c"; logLevel := VLevel ERROR |}].
Proof. vm_compute. reflexivity. Qed.

Example test_inherited_log_level :
  let before := snd (run_all inherited_setup empty_world) in
  let after :=
    snd (run_all [call_logger [VStr "a.b.c"]; call_logger [VStr "a.b.d"];
                  call_logger [VStr "a.x.a"]] before) in
  storage_get "a.b.d" (categories before) = None ∧
  storage_get "a.x.a" (categories before) = None ∧
  storage_get "a.b.d" (categories after) = Some "_" ∧
  storage_get "a.x.a" (categories after) = Some "_" ∧
  logLevel <$> heap after = [VLevel DEBUG; VLevel INFO; VLevel WARN].
Proof. vm_compute. repeat split. Qed.

Example test_logging :
  let w :=
    snd (run_all (inherited_setup ++
                  [call_logger [VStr "a.b.c"]; call_logger [VStr "z.z.z"];
                   call_debug 0 [VStr "d-message"; VNum 1];
                   call_info 0 [VStr "i-message"];
                   call_debug 1 [VStr "message"]; call_info 1 [VStr "message"];
                   call_warn 1 [VStr "message"]; call_error 1 [VStr "message"]])
           empty_world) in
  console w =
  [ {| fn := c_debug; passed := [VStr "[DEBUG - a.b.c] d-message"; VNum 1] |};
    {| fn := c_info; passed := [VStr "[INFO - a.b.c] i-message"] |};
    {| fn := c_error; passed := [VStr "[ERROR - z.z.z] message"] |} ].
Proof. vm_compute. reflexivity. Qed.

(** ** Dot parents *)

Lemma rev_dot_prefixes (s : string) :
  rev (dot_prefixes s) =
  match dot_parent s with
  | Some p => p :: rev (dot_prefixes p)
  | None => []
  end.
Proof.
  induction s as [|c r IH]; [reflexivity|].
  cbn [dot_prefixes dot_parent].
  rewrite rev_app_distr, <- map_rev, IH.
  destruct (dot_parent r) as [p|].
  - cbn [dot_prefixes]. rewrite rev_app_distr, <- map_rev. reflexivity.
  - destruct (Ascii.eqb c "."); reflexivity.
Qed.

(** The ancestors are the name, then the ancestors of its dot parent. *)
Lemma ancestors_unfold (s : string) :
  ancestors s = s :: from_option ancestors [] (dot_parent s).
Proof.
  unfold ancestors. rewrite rev_dot_prefixes.
  destruct (dot_parent s); reflexivity.
Qed.

(** ** The dot-parent walk *)

Lemma unset_insert_blank (st : gmap string string) (n m : string) :
  unset (st !! n) = true →
  unset (<[n := BLANK]> st !! m) = unset (st !! m).
Proof.
  intros Hn. destruct (decide (n = m)) as [->|Hne].
  - rewrite lookup_insert_eq, Hn. reflexivity.
  - rewrite lookup_insert_ne by done. reflexivity.
Qed.

Lemma nearest_set_insert_blank names (st : gmap string string) (n : string) :
  unset (st !! n) = true →
  nearest_set names (<[n := BLANK]> st) = nearest_set names st.
Proof.
  intros Hn. induction names as [|m rest IH]; [reflexivity|].
  cbn [nearest_set]. rewrite unset_insert_blank, IH by done.
  destruct (unset (st !! m)) eqn:Hm; [reflexivity|].
  destruct (decide (n = m)) as [->|Hne]; [congruence|].
  by rewrite lookup_insert_ne.
Qed.

Lemma unset_queried_insert_blank names (st : gmap string string) (n : string) :
  unset (st !! n) = true →
  unset_queried names (<[n := BLANK]> st) = unset_queried names st.
Proof.
  intros Hn. induction names as [|m rest IH]; [reflexivity|].
  cbn [unset_queried]. rewrite unset_insert_blank, IH by done. reflexivity.
Qed.

(** The walk returns the value of the nearest name that is set. *)
Lemma dot_parent_walk_found names (st : gmap string string) :
  fst (dot_parent_walk names st) = nearest_set names st.
Proof.
  revert st. induction names as [|n rest IH]; intros st; [reflexivity|].
  cbn [dot_parent_walk nearest_set]. destruct (unset (st !! n)) eqn:Hn.
  - unfold storage_set. rewrite IH. by apply nearest_set_insert_blank.
  - reflexivity.
Qed.

(** A blank stays blank through the walk. *)
Lemma dot_parent_walk_keeps_blank names (st : gmap string string) (m : string) :
  st !! m = Some BLANK → snd (dot_parent_walk names st) !! m = Some BLANK.
Proof.
  revert st. induction names as [|n rest IH]; intros st Hm; [done|].
  cbn [dot_parent_walk]. destruct (unset (st !! n)); [|done].
  apply IH. unfold storage_set.
  destruct (decide (n = m)) as [->|Hne].
  - by rewrite lookup_insert_eq.
  - by rewrite lookup_insert_ne.
Qed.

(** Every name found unset holds the blank sentinel after the walk. *)
Lemma dot_parent_walk_writes_blank names (st : gmap string string) (m : string) :
  m ∈ unset_queried names st → snd (dot_parent_walk names st) !! m = Some BLANK.
Proof.
  revert st. induction names as [|n rest IH]; intros st Hm.
  - by apply elem_of_nil in Hm.
  - cbn [dot_parent_walk unset_queried] in *.
    destruct (unset (st !! n)) eqn:Hn; [|by apply elem_of_nil in Hm].
    apply elem_of_cons in Hm as [->|Hm].
    + apply dot_parent_walk_keeps_blank. unfold storage_set.
      by rewrite lookup_insert_eq.
    + apply IH. unfold storage_set. by rewrite unset_queried_insert_blank.
Qed.

(** The walk touches nothing else. *)
Lemma dot_parent_walk_frame names (st : gmap string string) (m : string) :
  m ∉ unset_queried names st → snd (dot_parent_walk names st) !! m = st !! m.
Proof.
  revert st. induction names as [|n rest IH]; intros st Hm; [done|].
  cbn [dot_parent_walk unset_queried] in *.
  destruct (unset (st !! n)) eqn:Hn; [|done].
  apply not_elem_of_cons in Hm as [Hne Hm].
  rewrite IH.
  - unfold storage_set. by rewrite lookup_insert_ne.
  - unfold storage_set. by rewrite unset_queried_insert_blank.
Qed.

(** ** The constructor *)


(** A constructor call with a category that is a string returns: the
    Logger and the storage it leaves. *)
Lemma Logger_new_defined (c : value) (w : world) :
  is_string c = true →
  let found := from_option VStr VUndefined
                 (nearest_set (ancestors (to_string c)) (categories w)) in
  let st := snd (storage_get_checkDotParent (to_string c) (categories w)) in
  Logger_new c w =
  (Return {| category := c; logLevel := level_for found |},
   {| categories :=
        if negb (truthy found) || negb (truthy (Level_get found))
        then storage_set (to_string c) (id ERROR) st else st;
      console := console w; heap := heap w |}).
Proof.
  intros Hc found st. destruct c as [| |b|n|s|l|o]; try discriminate.
  unfold Logger_new. cbn [is_undefined to_string] in *.
  unfold mbind, M_bind, categories_get_checkDotParent.
  subst found st. rewrite <- dot_parent_walk_found.
  unfold storage_get_checkDotParent, level_for.
  destruct (dot_parent_walk (ancestors s) (categories w)) as [o st'].
  cbn [fst snd].
  destruct (negb (truthy (from_option VStr VUndefined o))
            || negb (truthy (Level_get (from_option VStr VUndefined o))));
    reflexivity.
Qed.

(** A category that is not a string: the guard throws for [undefined],
    the storage lookup for the others; nothing has changed. *)
Lemma Logger_new_not_string (c : value) (w : world) :
  is_string c = false → ∃ e, Logger_new c w = (Throw e, w).
Proof. destruct c; try discriminate; intros _; eexists; reflexivity. Qed.

Lemma id_set (l : Level) : unset (Some (id l)) = false.
Proof. by destruct l. Qed.

Lemma level_of_id_id (l : Level) : level_of_id (id l) = Some l.
Proof. destruct l; reflexivity. Qed.

Lemma level_of_id_Some (v : string) (l : Level) :
  level_of_id v = Some l → v = id l.
Proof.
  unfold level_of_id. intros H.
  repeat match type of H with
         | (if String.eqb ?a ?b then _ else _) = _ =>
             destruct (String.eqb_spec a b) as [->|_]
         end; try discriminate; by inversion H.
Qed.

Lemma level_for_level_id (v : string) (l : Level) :
  level_of_id v = Some l → level_for (VStr v) = VLevel l.
Proof.
  intros H. apply level_of_id_Some in H as ->. by destruct l.
Qed.

Lemma level_for_no_property (v : value) :
  Level_get v = VUndefined → level_for v = VLevel ERROR.
Proof.
  intros H. unfold level_for. rewrite H. cbn. by rewrite orb_true_r.
Qed.

Lemma level_for_undefined : level_for VUndefined = VLevel ERROR.
Proof. reflexivity. Qed.

(** ** Resolution of the level *)

(** C1, as stated, fails: with the spurious value [FOO] stored for [a.b]
    and [DEBUG] for [a], the nearest ancestor of [a.b] holding a valid
    level is [a], yet the Logger for [a.b] gets [ERROR]. *)
Lemma Logger_level_not_nearest_valid :
  ∃ w', Logger_new (VStr "a.b") shadowed_world =
        (Return {| category := VStr "a.b"; logLevel := VLevel ERROR |}, w')
        ∧ spec_resolved_level "a.b" (categories shadowed_world) = DEBUG.
Proof. eexists. split; vm_compute; reflexivity. Qed.

(** C1, amended: the Logger created for the category string [c] has one
    level, fixed by the constructor: the level named by the value of the
    nearest dot-ancestor of [c] ([c] itself first) that holds a value other
    than the blank sentinel, when that value is a level id; [ERROR] when no
    ancestor holds such a value or when the value names no property of
    [Level]. *)
Theorem Logger_level_nearest_set (c : string) (w : world) :
  (∀ v, nearest_set (ancestors c) (categories w) = Some v →
        level_of_id v = None → Level_get (VStr v) = VUndefined) →
  ∃ w', Logger_new (VStr c) w =
        (Return {| category := VStr c;
                   logLevel := VLevel (nearest_set_level c (categories w)) |}, w').
Proof.
  intros Hv. rewrite Logger_new_defined by reflexivity. cbn [to_string].
  eexists. do 3 f_equal. unfold nearest_set_level.
  destruct (nearest_set (ancestors c) (categories w)) as [v|] eqn:Hfound;
    cbn [from_option]; [|apply level_for_undefined].
  destruct (level_of_id v) as [l|] eqn:Hl; cbn [default].
  - by apply level_for_level_id.
  - apply level_for_no_property. by apply Hv.
Qed.

Lemma Logger_level_nearest_set_witness :
  ∃ w', Logger_new (VStr "a.b.d") inherited_world =
        (Return {| category := VStr "a.b.d"; logLevel := VLevel INFO |}, w').
Proof.
  apply (Logger_level_nearest_set "a.b.d" inherited_world).
  vm_compute. intros v Hv. inversion Hv. discriminate.
Defined.

(** C2: every segment the dot-parent walk for [c] finds unset holds the
    blank sentinel once the storage has answered, and still does when the
    constructor returns, except that [c] itself holds the default [ERROR]
    when the constructor stored it. *)
Theorem unset_segments_get_sentinel (c : string) (w : world) (n : string) :
  n ∈ unset_queried (ancestors c) (categories w) →
  categories (snd (categories_get_checkDotParent (VStr c) w)) !! n = Some BLANK ∧
  (categories (snd (Logger_new (VStr c) w)) !! n = Some BLANK ∨
   n = c ∧ categories (snd (Logger_new (VStr c) w)) !! n = Some (id ERROR)).
Proof.
  intros Hn.
  assert (snd (storage_get_checkDotParent c (categories w)) !! n = Some BLANK)
    as Hblank by by apply dot_parent_walk_writes_blank.
  split.
  - unfold categories_get_checkDotParent. cbn [to_string].
    by destruct (storage_get_checkDotParent c (categories w)).
  - rewrite Logger_new_defined by reflexivity. cbn [to_string snd categories].
    destruct (negb _ || negb _); [|by left].
    unfold storage_set. destruct (decide (c = n)) as [->|Hne].
    + right. by rewrite lookup_insert_eq.
    + left. by rewrite lookup_insert_ne.
Qed.

Lemma unset_segments_get_sentinel_witness :
  categories (snd (categories_get_checkDotParent (VStr "a.x.a") inherited_world))
    !! "a.x" = Some BLANK ∧
  (categories (snd (Logger_new (VStr "a.x.a") inherited_world)) !! "a.x" = Some BLANK ∨
   "a.x" = "a.x.a" ∧
   categories (snd (Logger_new (VStr "a.x.a") inherited_world)) !! "a.x" = Some (id ERROR)).
Proof.
  apply (unset_segments_get_sentinel "a.x.a" inherited_world "a.x").
  vm_compute. apply list_elem_of_further, list_elem_of_here.
Defined.

(** X4: a level configured for the category itself is the Logger's
    level, and the constructor writes nothing. *)
Lemma Logger_level_own_setting (c : string) (l : Level) (w : world) :
  categories w !! c = Some (id l) →
  Logger_new (VStr c) w
  = (Return {| category := VStr c; logLevel := VLevel l |}, w).
Proof.
  intros H. rewrite Logger_new_defined by reflexivity. cbn [to_string].
  unfold storage_get_checkDotParent. rewrite ancestors_unfold.
  cbn [nearest_set dot_parent_walk]. rewrite H, id_set. cbn [from_option snd].
  rewrite (level_for_level_id _ l) by apply level_of_id_id.
  replace (negb (truthy (VStr (id l))) || negb (truthy (Level_get (VStr (id l)))))
    with false by by destruct l.
  by destruct w.
Qed.

Lemma Logger_level_own_setting_witness :
  Logger_new (VStr "a.b") inherited_world
  = (Return {| category := VStr "a.b"; logLevel := VLevel INFO |}, inherited_world).
Proof.
  apply (Logger_level_own_setting "a.b" INFO inherited_world). reflexivity.
Defined.

(** X5: an unset category takes the level configured for its dot parent,
    and is left holding the blank sentinel. *)
Lemma Logger_level_inherited (c p : string) (l : Level) (w : world) :
  dot_parent c = Some p →
  unset (categories w !! c) = true →
  categories w !! p = Some (id l) →
  Logger_new (VStr c) w
  = (Return {| category := VStr c; logLevel := VLevel l |},
     {| categories := <[c := BLANK]> (categories w);
        console := console w; heap := heap w |}).
Proof.
  intros Hp Hc Hl.
  assert (c ≠ p) as Hne by (intros ->; rewrite Hl, id_set in Hc; discriminate).
  rewrite Logger_new_defined by reflexivity. cbn [to_string].
  unfold storage_get_checkDotParent.
  rewrite ancestors_unfold, Hp. cbn [from_option].
  rewrite (ancestors_unfold p). cbn [nearest_set dot_parent_walk].
  unfold storage_set. rewrite Hc, lookup_insert_ne, Hl, id_set by done.
  cbn [from_option snd].
  rewrite (level_for_level_id _ l) by apply level_of_id_id.
  by replace (negb (truthy (VStr (id l))) || negb (truthy (Level_get (VStr (id l)))))
    with false by by destruct l.
Qed.

Lemma Logger_level_inherited_witness :
  Logger_new (VStr "a.b.d") inherited_world
  = (Return {| category := VStr "a.b.d"; logLevel := VLevel INFO |},
     {| categories := <["a.b.d" := BLANK]> (categories inherited_world);
        console := []; heap := [] |}).
Proof.
  apply (Logger_level_inherited "a.b.d" "a.b" INFO inherited_world); reflexivity.
Defined.

(** ** isEnabled *)

(** C3: [isEnabled(level)] returns true exactly when the precedence of
    [level] is at least the precedence of the Logger's level; for a Logger
    whose level is the Level [l] it returns the outcome of that comparison. *)
Theorem isEnabled_iff_precedence (this : Logger) (level : Level) :
  (isEnabled this level = Return true ↔
   ∃ q, get_precedence (logLevel this) = Return (Some q)
        ∧ (precedence level >= q)%Z)
  ∧ ∀ c l, isEnabled {| category := c; logLevel := VLevel l |} level
           = Return (bool_decide (precedence level >= precedence l)%Z).
Proof.
  split.
  - unfold isEnabled.
    destruct (get_precedence (logLevel this)) as [[q|]|e]; cbn [ge_number]; split.
    + intros [= H]. exists q. split; [done|]. apply Z.leb_le in H. lia.
    + intros (q' & [= <-] & H). do 2 f_equal. apply Z.leb_le. lia.
    + discriminate.
    + intros (q' & [= ] & _).
    + discriminate.
    + intros (q' & [= ] & _).
  - intros c l. unfold isEnabled. cbn. f_equal.
    destruct (Z.leb_spec (precedence l) (precedence level));
      [rewrite bool_decide_eq_true_2 | rewrite bool_decide_eq_false_2];
      (done || lia).
Qed.

(** C4: [isEnabled] is monotonic in the precedence: enabled for a level,
    it is enabled for every level of at least that precedence. *)
Theorem isEnabled_monotonic (this : Logger) (l1 l2 : Level) :
  (precedence l1 <= precedence l2)%Z →
  isEnabled this l1 = Return true →
  isEnabled this l2 = Return true.
Proof.
  unfold isEnabled. intros Hle.
  destruct (get_precedence (logLevel this)) as [[q|]|e]; cbn [ge_number];
    [|done|done].
  intros [= H]. do 2 f_equal. apply Z.leb_le. apply Z.leb_le in H. lia.
Qed.

Lemma isEnabled_monotonic_witness :
  isEnabled {| category := VStr "a.b"; logLevel := VLevel INFO |} WARN = Return true.
Proof.
  apply (isEnabled_monotonic _ INFO WARN); [cbn; lia | reflexivity].
Defined.

(** ** setLogLevel *)

(** C5: [setLogLevel(category, level)] stores the id of [level] under the
    category, without throwing, when [level] is one of the five predefined
    levels; for any other [level] it throws an [Error] and leaves the
    storage as it was. *)
Theorem setLogLevel_fails_fast (category level : value) (w : world) :
  match level with
  | VLevel l =>
      setLogLevel category level w =
      (Return tt,
       {| categories := <[to_string category := id l]> (categories w);
          console := console w; heap := heap w |})
  | _ => ∃ message, setLogLevel category level w = (Throw (Error message), w)
  end.
Proof.
  destruct level as [| |b|n|s|l|o]; try (eexists; reflexivity).
  destruct l; reflexivity.
Qed.

(** An object with the fields of [Level.DEBUG] is not [Level.DEBUG]. *)
Example setLogLevel_lookalike :
  fst (setLogLevel (VStr "a") (VObject (Obj "[object Object]" (Some 0%Z))) empty_world)
  = Throw (Error ("Unexpected arg type for " ++ quoted "level" ++
                  ". Expected one of the predefined Level enums.")).
Proof. reflexivity. Qed.

(** ** Creating a Logger *)

(** C6: a call of [logger] without a category, or with [undefined] for
    it, throws an [Error]; nothing is stored and no Logger is added. *)
Theorem logger_missing_category (rest : list value) (w : world) :
  (∃ message, logger [] w = (Throw (Error message), w)) ∧
  (∃ message, logger (VUndefined :: rest) w = (Throw (Error message), w)).
Proof. split; eexists; reflexivity. Qed.



Example Logger_new_empty_string :
  fst (Logger_new (VStr "") inherited_world)
  = Return {| category := VStr ""; logLevel := VLevel ERROR |}.
Proof. vm_compute. reflexivity. Qed.

(** ** Loggers are immutable *)

Lemma Logger_new_heap (c : value) (w : world) :
  heap (snd (Logger_new c w)) = heap w.
Proof.
  destruct (is_string c) eqn:Hc.
  - rewrite Logger_new_defined by done. reflexivity.
  - by destruct (Logger_new_not_string c w Hc) as [e ->].
Qed.

Lemma setLogLevel_Level (c : value) (l : Level) (w : world) :
  setLogLevel c (VLevel l) w =
  (Return tt,
   {| categories := <[to_string c := id l]> (categories w);
      console := console w; heap := heap w |}).
Proof. by destruct l. Qed.

Lemma setLogLevel_heap (c level : value) (w : world) :
  heap (snd (setLogLevel c level w)) = heap w.
Proof. destruct level as [| |b|n|s|l|o]; try reflexivity. by destruct l. Qed.

Lemma method_heap (this : Logger) (level : Level) (f : console_function)
    (arguments : list value) (w : world) :
  heap (snd ((enabled ← lift (isEnabled this level);
              if enabled : bool
              then console_apply f (logArgs level (category this) (arguments_of arguments))
              else mret tt) w)) = heap w.
Proof.
  unfold mbind, M_bind, lift.
  destruct (isEnabled this level) as [[]|]; reflexivity.
Qed.

Lemma bind_heap {A B} (m : M A) (k : A → M B) (w : world) :
  heap (snd (m w)) = heap w →
  (∀ a w', heap (snd (k a w')) = heap w') →
  heap (snd ((m ≫= k) w)) = heap w.
Proof.
  intros Hm Hk. unfold mbind, M_bind.
  destruct (m w) as [[a|e] w']; cbn [snd] in *; [|done].
  by rewrite Hk.
Qed.

Lemma deref_heap (r : nat) (w : world) : heap (snd (deref r w)) = heap w.
Proof. unfold deref. by destruct (heap w !! r). Qed.

Lemma lift_heap {A} (o : outcome A) (w : world) : heap (snd (lift o w)) = heap w.
Proof. reflexivity. Qed.

Ltac heap_unchanged :=
  repeat first
    [ apply method_heap | apply deref_heap | apply lift_heap
    | apply setLogLevel_heap | reflexivity
    | apply bind_heap; [|intros ??] ].

(** A call adds at most one Logger at the end of the heap and changes
    none. *)
Lemma run_heap (c : call) (w : world) :
  heap (snd (run c w)) = heap w ∨
  ∃ l, heap (snd (run c w)) = (heap w ++ [l])%list.
Proof.
  destruct c as [args|args|r lv|r|r|r|r|r args|r args|r args|r args|r args|nm v];
    cbn [run];
    try solve [left; heap_unchanged].
  unfold logger, mbind, M_bind.
  pose proof (Logger_new_heap (parameter 0 args) w) as H.
  destruct (Logger_new _ w) as [[l|e] w']; cbn [snd] in *; [|by left].
  right. exists l. cbn. by rewrite H.
Qed.

(** After [setLogLevel(name, level)], a new Logger for [name] has [level]. *)
Lemma Logger_new_after_setLogLevel (name : string) (lv : Level) (w : world) :
  ∃ w2,
    Logger_new (VStr name) (snd (setLogLevel (VStr name) (VLevel lv) w))
    = (Return {| category := VStr name; logLevel := VLevel lv |}, w2)
    ∧ heap w2 = heap w.
Proof.
  rewrite setLogLevel_Level. cbn [snd to_string].
  rewrite Logger_new_defined by reflexivity. cbn [to_string categories].
  rewrite ancestors_unfold. cbn [nearest_set].
  rewrite lookup_insert_eq, id_set. cbn [from_option].
  rewrite (level_for_level_id _ lv) by apply level_of_id_id.
  eexists. split; reflexivity.
Qed.

Lemma run_setLogLevel_world (c level : value) (w : world) :
  snd (run (call_setLogLevel [c; level]) w) = snd (setLogLevel c level w).
Proof.
  cbn [run]. unfold mbind, M_bind.
  change (parameter 0 [c; level]) with c.
  change (parameter 1 [c; level]) with level.
  by destruct (setLogLevel c level w) as [[[]|e] w'].
Qed.

Lemma run_logger_heap (c : value) (w w' : world) (l : Logger) :
  Logger_new c w = (Return l, w') →
  heap (snd (run (call_logger [c]) w)) = (heap w' ++ [l])%list.
Proof.
  intros H. cbn [run]. unfold logger, mbind, M_bind.
  change (parameter 0 [c]) with c. by rewrite H.
Qed.

(** C7: a Logger does not change once constructed.  Whatever is called
    next (a method of any Logger, [setLogLevel], [logger], a write to the
    storage), the Logger behind a reference keeps its category and its
    level; after [setLogLevel(name, level)] the Loggers that exist keep
    theirs, and the Logger that [logger(name)] then constructs has
    [level]. *)
Theorem Logger_immutable (c : call) (w : world) (ref : nat) (l : Logger) :
  heap w !! ref = Some l →
  heap (snd (run c w)) !! ref = Some l ∧
  ∀ (name : string) (lv : Level),
    let w1 := snd (run (call_setLogLevel [VStr name; VLevel lv]) w) in
    let w2 := snd (run (call_logger [VStr name]) w1) in
    heap w1 !! ref = Some l ∧ heap w2 !! ref = Some l ∧
    heap w2 !! length (heap w)
    = Some {| category := VStr name; logLevel := VLevel lv |}.
Proof.
  intros Hl.
  assert (∀ c' w', heap w' !! ref = Some l → heap (snd (run c' w')) !! ref = Some l)
    as Hkeep.
  { intros c' w' H. destruct (run_heap c' w') as [->|[l' ->]]; [done|].
    by apply lookup_app_l_Some. }
  split; [by apply Hkeep|].
  intros name lv w1 w2. split; [by apply Hkeep|]. split; [by do 2 apply Hkeep|].
  subst w1 w2. rewrite run_setLogLevel_world.
  destruct (Logger_new_after_setLogLevel name lv w) as (w2 & Hnew & Hheap).
  rewrite (run_logger_heap _ _ _ _ Hnew), Hheap.
  by rewrite lookup_app_r, Nat.sub_diag.
Qed.

Lemma Logger_immutable_witness :
  heap (snd (run (call_setLogLevel [VStr "a.b"; VLevel DEBUG]) stale_world)) !! 0
  = Some {| category := VStr "a.b"; logLevel := VLevel ERROR |}.
Proof.
  apply (Logger_immutable (call_setLogLevel [VStr "a.b"; VLevel DEBUG])
           stale_world 0 {| category := VStr "a.b"; logLevel := VLevel ERROR |}).
  reflexivity.
Defined.

(** ** logArgs and what reaches the console *)

Lemma map_lookup_seq (l : list value) (n : nat) :
  (n ≤ length l)%nat →
  map (λ i, default VUndefined (l !! i)) (seq 0 n) = take n l.
Proof.
  revert n. induction l as [|x l IH]; intros n Hn.
  - cbn in Hn. by replace n with 0 by lia.
  - destruct n as [|n]; [done|]. cbn [seq map take lookup list_lookup default].
    f_equal. rewrite <- seq_shift, map_map. apply IH. cbn in Hn. lia.
Qed.

Lemma apply_list_arguments_of (passed : list value) :
  apply_list (arguments_of passed) = passed.
Proof.
  unfold apply_list, arguments_of, get_index. cbn [slots len].
  rewrite map_lookup_seq by done. apply firstn_all.
Qed.

(** The loop that puts the copied arguments back, one slot to the right. *)
Lemma put_back_loop (x : value) (done todo old : list value) (n : nat) :
  fold_left
    (λ callArgs ii,
       put_index (ii + 1) (default VUndefined ((done ++ todo)%list !! ii)) callArgs)
    (seq (length done) (length todo))
    {| slots := x :: (done ++ old)%list; len := n |}
  = {| slots := x :: (done ++ todo ++ drop (length todo) old)%list; len := n |}.
Proof.
  revert done old. induction todo as [|t todo IH]; intros done old.
  - cbn. by rewrite drop_0.
  - cbn [length seq fold_left].
    rewrite (lookup_app_r done) by done. rewrite Nat.sub_diag.
    cbn [lookup list_lookup default].
    replace (done ++ t :: todo)%list with ((done ++ [t]) ++ todo)%list
      by by rewrite <- app_assoc.
    unfold Datatypes.id.
    assert (put_index (length done + 1) t {| slots := x :: (done ++ old)%list; len := n |}
            = {| slots := x :: ((done ++ [t]) ++ tail old)%list; len := n |}) as ->.
    { unfold put_index, put_slot. cbn [slots len]. f_equal.
      cbn [length]. rewrite length_app.
      destruct old as [|o old]; cbn [length tail].
      - rewrite Nat.add_0_r, app_nil_r.
        destruct (Nat.ltb_spec (length done + 1) (S (length done))); [lia|].
        replace (length done + 1 - S (length done)) with 0 by lia.
        cbn. by rewrite <- app_assoc.
      - destruct (Nat.ltb_spec (length done + 1) (S (length done + S (length old))));
          [|lia].
        replace (length done + 1) with (length (x :: done)) by (cbn; lia).
        rewrite !app_comm_cons, insert_app_r_alt by done.
        rewrite Nat.sub_diag. cbn. by rewrite <- app_assoc. }
    replace (S (length done)) with (length (done ++ [t])%list)
      by (rewrite length_app; cbn; lia).
    rewrite IH. f_equal. rewrite <- !app_assoc. cbn [app].
    destruct old; cbn [tail drop]; [by rewrite !drop_nil|done].
Qed.

Lemma logArgs_no_arguments (level : Level) (c : value) :
  logArgs level c (arguments_of []) = arguments_of [].
Proof. reflexivity. Qed.

Lemma logArgs_string (level : Level) (c : value) (s : string) (rest : list value) :
  logArgs level c (arguments_of (VStr s :: rest))
  = arguments_of (VStr (prefix_of_call level c ++ s) :: rest).
Proof.
  unfold logArgs. fold (apply_list (arguments_of (VStr s :: rest))).
  rewrite apply_list_arguments_of. cbn [arguments_of len length Nat.eqb].
  etrans; [apply (put_back_loop _ [] rest rest)|].
  unfold arguments_of. cbn [app length]. by rewrite drop_all, app_nil_r.
Qed.

Lemma logArgs_not_string (level : Level) (c v : value) (rest : list value) :
  is_string v = false →
  logArgs level c (arguments_of (v :: rest))
  = {| slots := VStr (prefix_of_call level c) :: v :: rest;
       len := S (length rest) |}.
Proof.
  intros Hv. unfold logArgs. fold (apply_list (arguments_of (v :: rest))).
  rewrite apply_list_arguments_of. cbn [arguments_of len length Nat.eqb].
  assert (match v with
          | VStr s => (("[" ++ id level ++ " - " ++ to_string c ++ "] ") ++ s, rest)
          | _ => ("[" ++ id level ++ " - " ++ to_string c ++ "] ", v :: rest)
          end = (prefix_of_call level c, v :: rest)) as ->
    by by destruct v.
  etrans; [apply (put_back_loop _ [] (v :: rest) rest)|].
  cbn [app length]. by rewrite drop_ge, app_nil_r by (cbn; lia).
Qed.

(** X1: what the console receives from an enabled call: nothing for no
    argument; the prefix joined to a first argument that is a string, then
    the other arguments; else the prefix, then the arguments but the last. *)
Lemma console_receives (level : Level) (c : value) (passed : list value) :
  apply_list (logArgs level c (arguments_of passed)) =
  match passed with
  | [] => []
  | VStr s :: rest => VStr (prefix_of_call level c ++ s) :: rest
  | v :: rest => VStr (prefix_of_call level c) :: take (length rest) (v :: rest)
  end.
Proof.
  destruct passed as [|v rest]; [reflexivity|].
  destruct (is_string v) eqn:Hv.
  - destruct v; try discriminate.
    by rewrite logArgs_string, apply_list_arguments_of.
  - rewrite logArgs_not_string by done.
    unfold apply_list, get_index. cbn [slots len].
    rewrite map_lookup_seq by (cbn; lia).
    by destruct v.
Qed.

(** X2: [error] calls [console.error] once, whatever the level of the
    Logger, and changes neither the storage nor a Logger. *)
Lemma error_logs_at_any_level (r : nat) (this : Logger) (arguments : list value)
    (w : world) :
  heap w !! r = Some this →
  run (call_error r arguments) w =
  (Return a_undefined,
   {| categories := categories w;
      console := (console w ++
                  [{| fn := c_error;
                      passed := apply_list (logArgs ERROR (category this)
                                              (arguments_of arguments)) |}])%list;
      heap := heap w |}).
Proof.
  intros H. cbn [run]. unfold mbind, M_bind, deref. by rewrite H.
Qed.

Lemma error_logs_at_any_level_witness :
  run (call_error 0 [VStr "failed"]) stale_world =
  (Return a_undefined,
   {| categories := categories stale_world;
      console := [{| fn := c_error; passed := [VStr "[ERROR - a.b] failed"] |}];
      heap := heap stale_world |}).
Proof.
  apply (error_logs_at_any_level 0
           {| category := VStr "a.b"; logLevel := VLevel ERROR |}
           [VStr "failed"] stale_world).
  reflexivity.
Defined.

(** X3: [isEnabled(Level.ERROR)] is true when the Logger's level is a Level. *)
Lemma isEnabled_ERROR (c : value) (l : Level) :
  isEnabled {| category := c; logLevel := VLevel l |} ERROR = Return true.
Proof. by destruct l. Qed.

(** C8, where the code departs from it: with [name] stored for the
    category [a], [Level['name']] is the string ['Level'], the constructor
    keeps it as the level of the Logger, and [isEnabled(Level.ERROR)] is
    false for that Logger. *)
Theorem isEnabled_ERROR_false_on_function_member :
  ∃ w', Logger_new (VStr "a") member_world =
        (Return {| category := VStr "a"; logLevel := VStr "Level" |}, w')
        ∧ isEnabled {| category := VStr "a"; logLevel := VStr "Level" |} ERROR
          = Return false.
Proof. eexists. split; vm_compute; reflexivity. Qed.

(** C9, where the code departs from it: [error(42, 43)] on a Logger for
    [a] passes the prefix and [42] to [console.error]; [43] is lost. *)
Theorem last_argument_lost :
  console (snd (error {| category := VStr "a"; logLevel := VLevel ERROR |}
                  [VNum 42; VNum 43] empty_world))
  = [{| fn := c_error; passed := [VStr "[ERROR - a] "; VNum 42] |}].
Proof. vm_compute. reflexivity. Qed.

(** ** Which calls reach the console *)

(** X6: on a Logger whose level is the Level [l], the method of level [m]
    makes one call of the console function of [m] when the precedence of
    [m] is at least that of [l], and otherwise changes nothing. *)
Lemma method_gating (m l : Level) (c : value) (arguments : list value) (w : world) :
  method m {| category := c; logLevel := VLevel l |} arguments w =
  (Return tt,
   if bool_decide (precedence l ≤ precedence m)%Z
   then logged (console_of m) (apply_list (logArgs m c (arguments_of arguments))) w
   else w).
Proof. destruct m, l; reflexivity. Qed.

Lemma put_loop_len (copy : list value) (iis : list nat) (a : arguments_object) :
  len (fold_left
         (λ callArgs ii,
            put_index (ii + 1) (default VUndefined (copy !! ii)) callArgs)
         iis a) = len a.
Proof.
  revert a. induction iis as [|ii iis IH]; intros a; [reflexivity|].
  cbn [fold_left]. by rewrite IH.
Qed.

(** X7: [logArgs] never changes the [length] of the arguments object, so
    the console receives exactly as many values as the call passed. *)
Lemma console_receives_as_many (level : Level) (c : value) (a : arguments_object)
    (passed : list value) :
  len (logArgs level c a) = len a ∧
  length (apply_list (logArgs level c (arguments_of passed))) = length passed.
Proof.
  assert (∀ a', len (logArgs level c a') = len a') as Hlen.
  { intros a'. unfold logArgs. destruct (len a' =? 0)%nat; [reflexivity|].
    destruct (map _ _) as [|[] ?]; by rewrite put_loop_len. }
  split; [apply Hlen|].
  unfold apply_list. by rewrite length_map, length_seq, Hlen.
Qed.

(** ** What the constructor guarantees, keeps and leaves alone *)

Lemma level_for_truthy (v : value) : truthy (level_for v) = true.
Proof.
  unfold level_for. destruct (truthy v); cbn [negb orb]; [|reflexivity].
  by destruct (truthy (Level_get v)) eqn:H.
Qed.

Lemma Logger_new_returned (c : value) (w w' : world) (this : Logger) :
  Logger_new c w = (Return this, w') → is_string c = true.
Proof.
  destruct (is_string c) eqn:Hc; [done|].
  destruct (Logger_new_not_string c w Hc) as [e ->]. discriminate.
Qed.

Lemma unset_queried_elem names (st : gmap string string) (n : string) :
  n ∈ unset_queried names st → n ∈ names ∧ unset (st !! n) = true.
Proof.
  induction names as [|m rest IH]; cbn [unset_queried].
  - intros H. by apply elem_of_nil in H.
  - destruct (unset (st !! m)) eqn:Hm; [|intros H; by apply elem_of_nil in H].
    intros [->|H]%elem_of_cons.
    + split; [apply list_elem_of_here|done].
    + destruct (IH H). split; [by apply list_elem_of_further|done].
Qed.

Lemma ancestors_self (s : string) : s ∈ ancestors s.
Proof. apply list_elem_of_here. Qed.

(** X8: the level of a Logger the constructor returns is never
    [undefined], [null] or any other falsy value, so [isEnabled] returns a
    boolean for it and does not throw. *)
Lemma constructed_Logger_checks (c : value) (w w' : world) (this : Logger)
    (level : Level) :
  Logger_new c w = (Return this, w') →
  truthy (logLevel this) = true ∧ ∃ b, isEnabled this level = Return b.
Proof.
  intros H. pose proof (Logger_new_returned _ _ _ _ H) as Hc.
  rewrite Logger_new_defined in H by done. injection H as <- _.
  cbn [logLevel]. pose proof (level_for_truthy
    (from_option VStr VUndefined
       (nearest_set (ancestors (to_string c)) (categories w)))) as Ht.
  split; [done|]. unfold isEnabled. cbn [logLevel].
  destruct (level_for _) as [| |b|n|s|l|o]; try discriminate; cbn; eauto.
Qed.

Lemma constructed_Logger_checks_witness :
  truthy (VStr "Level") = true ∧
  ∃ b, isEnabled {| category := VStr "a"; logLevel := VStr "Level" |} WARN = Return b.
Proof.
  apply (constructed_Logger_checks (VStr "a") member_world member_world
           {| category := VStr "a"; logLevel := VStr "Level" |} WARN).
  reflexivity.
Defined.

(** X9: the constructor changes the storage only at the dot-ancestors of
    the category (itself included), and neither the console nor a Logger. *)
Lemma Logger_new_touches_only_ancestors (c : value) (w : world) (n : string) :
  n ∉ ancestors (to_string c) →
  categories (snd (Logger_new c w)) !! n = categories w !! n
  ∧ console (snd (Logger_new c w)) = console w
  ∧ heap (snd (Logger_new c w)) = heap w.
Proof.
  intros Hn. destruct (is_string c) eqn:Hc;
    [|by destruct (Logger_new_not_string c w Hc) as [e ->]].
  - rewrite Logger_new_defined by done. cbn [snd categories console heap].
    split; [|done].
    assert (snd (storage_get_checkDotParent (to_string c) (categories w)) !! n
            = categories w !! n) as Hwalk.
    { apply dot_parent_walk_frame. intros H. by apply unset_queried_elem in H as [? _]. }
    destruct (negb _ || negb _); [|done].
    unfold storage_set. rewrite lookup_insert_ne; [done|].
    intros <-. apply Hn, ancestors_self.
Qed.

Lemma Logger_new_touches_only_ancestors_witness :
  categories (snd (Logger_new (VStr "a.x.a") inherited_world)) !! "a.b"
  = categories inherited_world !! "a.b"
  ∧ console (snd (Logger_new (VStr "a.x.a") inherited_world)) = console inherited_world
  ∧ heap (snd (Logger_new (VStr "a.x.a") inherited_world)) = heap inherited_world.
Proof.
  apply (Logger_new_touches_only_ancestors (VStr "a.x.a") inherited_world "a.b").
  vm_compute. intros H.
  repeat (apply elem_of_cons in H as [H|H]; [discriminate|]).
  by apply elem_of_nil in H.
Defined.

(** X10: the constructor never changes a stored level: a name that holds
    the id of a Level holds it afterwards, whatever the category. *)
Lemma Logger_new_keeps_configured_levels (c : value) (w : world) (n : string)
    (l : Level) :
  categories w !! n = Some (id l) →
  categories (snd (Logger_new c w)) !! n = Some (id l).
Proof.
  intros Hn. destruct (is_string c) eqn:Hc;
    [|by destruct (Logger_new_not_string c w Hc) as [e ->]].
  - rewrite Logger_new_defined by done. cbn [snd categories].
    assert (snd (storage_get_checkDotParent (to_string c) (categories w)) !! n
            = Some (id l)) as Hwalk.
    { rewrite <- Hn. apply dot_parent_walk_frame. intros H.
      apply unset_queried_elem in H as [_ H]. by rewrite Hn, id_set in H. }
    destruct (negb _ || negb _) eqn:Hcond; [|done].
    unfold storage_set. destruct (decide (to_string c = n)) as [Heq|Hne];
      [|by rewrite lookup_insert_ne].
    exfalso. subst n. rewrite ancestors_unfold in Hcond.
    cbn [nearest_set] in Hcond. rewrite Hn, id_set in Hcond.
    cbn [from_option] in Hcond. by destruct l.
Qed.

Lemma Logger_new_keeps_configured_levels_witness :
  categories (snd (Logger_new (VStr "a.b.d") inherited_world)) !! "a.b"
  = Some (id INFO).
Proof.
  apply (Logger_new_keeps_configured_levels (VStr "a.b.d") inherited_world "a.b" INFO).
  reflexivity.
Defined.

(** ** Constructing again, and configuring afterwards *)

Lemma dot_parent_walk_nearest_set names names' (st : gmap string string) :
  nearest_set names' (snd (dot_parent_walk names st)) = nearest_set names' st.
Proof.
  revert st. induction names as [|n rest IH]; intros st; [reflexivity|].
  cbn [dot_parent_walk]. destruct (unset (st !! n)) eqn:Hn; [|reflexivity].
  unfold storage_set. rewrite IH. by apply nearest_set_insert_blank.
Qed.

Lemma dot_parent_walk_again names (st : gmap string string) :
  snd (dot_parent_walk names (snd (dot_parent_walk names st)))
  = snd (dot_parent_walk names st).
Proof.
  revert st. induction names as [|n rest IH]; intros st; [reflexivity|].
  cbn [dot_parent_walk]. destruct (unset (st !! n)) eqn:Hn.
  - unfold storage_set.
    pose proof (dot_parent_walk_keeps_blank rest (<[n:=BLANK]> st) n
                  (lookup_insert_eq _ _ _)) as Hblank.
    cbn [dot_parent_walk]. rewrite Hblank. cbn [unset].
    replace (String.eqb BLANK BLANK) with true by reflexivity.
    unfold storage_set. rewrite (insert_id _ _ _ Hblank). apply IH.
  - cbn [snd dot_parent_walk]. by rewrite Hn.
Qed.

(** The constructor on a category that holds a value of its own. *)
Lemma Logger_new_own_value (c : value) (v : string) (w : world) :
  is_string c = true →
  categories w !! to_string c = Some v →
  unset (Some v) = false →
  Logger_new c w =
  (Return {| category := c; logLevel := level_for (VStr v) |},
   {| categories :=
        if negb (truthy (VStr v)) || negb (truthy (Level_get (VStr v)))
        then storage_set (to_string c) (id ERROR) (categories w)
        else categories w;
      console := console w; heap := heap w |}).
Proof.
  intros Hc Hv Hset. rewrite Logger_new_defined by done.
  unfold storage_get_checkDotParent. rewrite ancestors_unfold.
  cbn [nearest_set dot_parent_walk]. by rewrite Hv, Hset.
Qed.

(** The constructor on an unset category whose dot parent holds a value. *)
Lemma Logger_new_parent_value (c p v : string) (w : world) :
  dot_parent c = Some p →
  unset (categories w !! c) = true →
  categories w !! p = Some v →
  unset (Some v) = false →
  Logger_new (VStr c) w =
  (Return {| category := VStr c; logLevel := level_for (VStr v) |},
   {| categories :=
        if negb (truthy (VStr v)) || negb (truthy (Level_get (VStr v)))
        then storage_set c (id ERROR) (<[c := BLANK]> (categories w))
        else <[c := BLANK]> (categories w);
      console := console w; heap := heap w |}).
Proof.
  intros Hp Hc Hv Hset.
  assert (c ≠ p) as Hne by (intros ->; rewrite Hv, Hset in Hc; discriminate).
  rewrite Logger_new_defined by reflexivity. cbn [to_string].
  unfold storage_get_checkDotParent.
  rewrite ancestors_unfold, Hp. cbn [from_option].
  rewrite (ancestors_unfold p). cbn [nearest_set dot_parent_walk].
  unfold storage_set. by rewrite Hc, lookup_insert_ne, Hv, Hset by done.
Qed.

(** X11: constructing a Logger for the same category again gives the
    same Logger and writes nothing more. *)
Lemma Logger_new_again (c : value) (w w1 : world) (this : Logger) :
  Logger_new c w = (Return this, w1) →
  Logger_new c w1 = (Return this, w1).
Proof.
  intros H. pose proof (Logger_new_returned _ _ _ _ H) as Hc.
  rewrite Logger_new_defined in H by done.
  set (names := ancestors (to_string c)) in *.
  set (found := from_option VStr VUndefined (nearest_set names (categories w))) in *.
  destruct (negb (truthy found) || negb (truthy (Level_get found))) eqn:Hcond;
    injection H as <- <-.
  - assert (level_for found = VLevel ERROR) as ->
      by (unfold level_for; by rewrite Hcond).
    rewrite (Logger_new_own_value c (id ERROR)); [reflexivity|done| |done].
    cbn [categories]. unfold storage_set. by rewrite lookup_insert_eq.
  - rewrite Logger_new_defined by done. cbn [categories console heap].
    fold names. unfold storage_get_checkDotParent. fold names.
    rewrite dot_parent_walk_nearest_set, dot_parent_walk_again.
    fold found. by rewrite Hcond.
Qed.

Lemma Logger_new_again_witness :
  Logger_new (VStr "z.z") (snd (Logger_new (VStr "z.z") empty_world))
  = (Return {| category := VStr "z.z"; logLevel := VLevel ERROR |},
     snd (Logger_new (VStr "z.z") empty_world)).
Proof.
  apply (Logger_new_again (VStr "z.z") empty_world). reflexivity.
Defined.

(** X12: a default is pinned.  When nothing is configured for a category
    or its ancestors, the first Logger gets [ERROR] and stores it for the
    category; a level set afterwards for any other name, an ancestor
    included, does not reach the Loggers created for that category. *)
Lemma default_is_pinned (c p : string) (l : Level) (w : world) :
  nearest_set (ancestors c) (categories w) = None →
  p ≠ c →
  let w1 := snd (Logger_new (VStr c) w) in
  let w2 := snd (setLogLevel (VStr p) (VLevel l) w1) in
  fst (Logger_new (VStr c) w)
  = Return {| category := VStr c; logLevel := VLevel ERROR |} ∧
  categories w1 !! c = Some "ERROR" ∧
  fst (Logger_new (VStr c) w2)
  = Return {| category := VStr c; logLevel := VLevel ERROR |}.
Proof.
  intros Hnone Hp w1 w2. subst w1 w2.
  rewrite Logger_new_defined by reflexivity. cbn [to_string fst snd].
  rewrite Hnone. cbn [from_option]. split; [reflexivity|].
  split; [cbn; unfold storage_set; apply lookup_insert_eq|].
  rewrite setLogLevel_Level. cbn [snd to_string truthy negb orb].
  rewrite (Logger_new_own_value (VStr c) (id ERROR));
    [reflexivity|reflexivity| |reflexivity].
  cbn [categories to_string]. unfold storage_set.
  by rewrite lookup_insert_ne, lookup_insert_eq.
Qed.

Lemma default_is_pinned_witness :
  fst (Logger_new (VStr "z.z") empty_world)
  = Return {| category := VStr "z.z"; logLevel := VLevel ERROR |} ∧
  categories (snd (Logger_new (VStr "z.z") empty_world)) !! "z.z" = Some "ERROR" ∧
  fst (Logger_new (VStr "z.z")
         (snd (setLogLevel (VStr "z") (VLevel DEBUG)
                 (snd (Logger_new (VStr "z.z") empty_world)))))
  = Return {| category := VStr "z.z"; logLevel := VLevel ERROR |}.
Proof.
  apply (default_is_pinned "z.z" "z" DEBUG empty_world); [reflexivity|discriminate].
Defined.

(** X13: an inherited level is not pinned.  A Logger for an unset
    category gets the level of its dot parent; after the parent is set to
    another level, a new Logger for the category gets that one. *)
Lemma inherited_level_follows_parent (c p : string) (l l' : Level) (w : world) :
  dot_parent c = Some p →
  unset (categories w !! c) = true →
  categories w !! p = Some (id l) →
  let w1 := snd (Logger_new (VStr c) w) in
  let w2 := snd (setLogLevel (VStr p) (VLevel l') w1) in
  fst (Logger_new (VStr c) w)
  = Return {| category := VStr c; logLevel := VLevel l |} ∧
  fst (Logger_new (VStr c) w2)
  = Return {| category := VStr c; logLevel := VLevel l' |}.
Proof.
  intros Hp Hc Hl w1 w2. subst w1 w2.
  assert (c ≠ p) as Hne by (intros ->; rewrite Hl, id_set in Hc; discriminate).
  assert (∀ k : Level,
            negb (truthy (VStr (id k))) || negb (truthy (Level_get (VStr (id k))))
            = false) as Hvalid by by intros [].
  rewrite (Logger_new_parent_value c p (id l)); [|done|done|done|apply id_set].
  rewrite Hvalid, (level_for_level_id _ l) by apply level_of_id_id.
  split; [reflexivity|]. cbn [snd fst].
  rewrite setLogLevel_Level. cbn [snd to_string categories].
  rewrite (Logger_new_parent_value c p (id l')); [|done|..|apply id_set].
  - by rewrite Hvalid, (level_for_level_id _ l') by apply level_of_id_id.
  - cbn [categories]. by rewrite lookup_insert_ne, lookup_insert_eq.
  - cbn [categories]. by rewrite lookup_insert_eq.
Qed.

Lemma inherited_level_follows_parent_witness :
  fst (Logger_new (VStr "a.b.d") inherited_world)
  = Return {| category := VStr "a.b.d"; logLevel := VLevel INFO |} ∧
  fst (Logger_new (VStr "a.b.d")
         (snd (setLogLevel (VStr "a.b") (VLevel DEBUG)
                 (snd (Logger_new (VStr "a.b.d") inherited_world)))))
  = Return {| category := VStr "a.b.d"; logLevel := VLevel DEBUG |}.
Proof.
  apply (inherited_level_follows_parent "a.b.d" "a.b" INFO DEBUG inherited_world);
    reflexivity.
Defined.

(** ** What a call may change *)

Lemma run_method (r : nat) (this : Logger) (m : Level) (arguments : list value)
    (w : world) :
  heap w !! r = Some this →
  run (log_call m r arguments) w =
  match method m this arguments w with
  | (Return _, w') => (Return a_undefined, w')
  | (Throw e, w') => (Throw e, w')
  end.
Proof.
  intros H. destruct m; cbn [log_call run method];
    unfold mbind, M_bind, deref; rewrite H;
    by destruct (_ this arguments w) as [[[]|e] w'].
Qed.

Lemma method_cases (m : Level) (this : Logger) (arguments : list value) (w : world) :
  (∃ e, method m this arguments w = (Throw e, w)) ∨
  method m this arguments w = (Return tt, w) ∨
  method m this arguments w
  = (Return tt,
     logged (console_of m)
       (apply_list (logArgs m (category this) (arguments_of arguments))) w).
Proof.
  destruct m; cbn [method console_of];
    unfold debug, log, info, warn, error, mbind, M_bind, lift;
    try (destruct (isEnabled this _) as [[]|e]); eauto.
Qed.

(** X14: what each call may change.  A level check changes nothing; a
    logging method leaves the storage and the Loggers alone and adds at
    most one call to the console; [setLogLevel] and a write to the storage
    leave the console and the Loggers alone; [logger] leaves the console
    alone. *)
Lemma run_frame (c : call) (w : world) :
  match c with
  | call_isEnabled _ _ | call_isDebugEnabled _ | call_isLogEnabled _
  | call_isInfoEnabled _ | call_isWarnEnabled _ =>
      snd (run c w) = w
  | call_debug _ _ | call_log _ _ | call_info _ _ | call_warn _ _
  | call_error _ _ =>
      categories (snd (run c w)) = categories w ∧
      heap (snd (run c w)) = heap w ∧
      (console (snd (run c w)) = console w ∨
       ∃ e, console (snd (run c w)) = (console w ++ [e])%list)
  | call_setLogLevel _ | call_storage_set _ _ =>
      console (snd (run c w)) = console w ∧ heap (snd (run c w)) = heap w
  | call_logger _ => console (snd (run c w)) = console w
  end.
Proof.
  assert (∀ m r arguments,
            categories (snd (run (log_call m r arguments) w)) = categories w ∧
            heap (snd (run (log_call m r arguments) w)) = heap w ∧
            (console (snd (run (log_call m r arguments) w)) = console w ∨
             ∃ e, console (snd (run (log_call m r arguments) w))
                  = (console w ++ [e])%list)) as Hlog.
  { intros m r arguments. destruct (heap w !! r) as [this|] eqn:Hr.
    - rewrite (run_method _ _ _ _ _ Hr).
      destruct (method_cases m this arguments w) as [[e ->]|[->| ->]];
        cbn [snd logged categories heap console]; eauto.
    - destruct m; cbn [log_call run]; unfold mbind, M_bind, deref;
        rewrite Hr; eauto. }
  destruct c as [args|args|r lv|r|r|r|r|r args|r args|r args|r args|r args|nm v].
  - cbn [run]. unfold mbind, M_bind.
    destruct (parameter 1 args) as [| |b|n|s|l|o]; try (by split);
      by destruct l.
  - cbn [run]. unfold logger, mbind, M_bind.
    destruct (is_string (parameter 0 args)) eqn:Hc.
    + by rewrite Logger_new_defined by done.
    + by destruct (Logger_new_not_string _ w Hc) as [e0 ->].
  - cbn [run]. unfold mbind, M_bind, deref, lift.
    destruct (heap w !! r); [|done]. by destruct (isEnabled _ _).
  - cbn [run]. unfold mbind, M_bind, deref, lift.
    destruct (heap w !! r); [|done]. by destruct (isDebugEnabled _).
  - cbn [run]. unfold mbind, M_bind, deref, lift.
    destruct (heap w !! r); [|done]. by destruct (isLogEnabled _).
  - cbn [run]. unfold mbind, M_bind, deref, lift.
    destruct (heap w !! r); [|done]. by destruct (isInfoEnabled _).
  - cbn [run]. unfold mbind, M_bind, deref, lift.
    destruct (heap w !! r); [|done]. by destruct (isWarnEnabled _).
  - apply (Hlog DEBUG).
  - apply (Hlog LOG).
  - apply (Hlog INFO).
  - apply (Hlog WARN).
  - apply (Hlog ERROR).
  - by split.
Qed.

(** X15: a call that throws has changed nothing. *)
Lemma run_throw_changes_nothing (c : call) (w : world) (e : exn) :
  fst (run c w) = Throw e → snd (run c w) = w.
Proof.
  assert (∀ m r arguments,
            fst (run (log_call m r arguments) w) = Throw e →
            snd (run (log_call m r arguments) w) = w) as Hlog.
  { intros m r arguments. destruct (heap w !! r) as [this|] eqn:Hr.
    - rewrite (run_method _ _ _ _ _ Hr).
      by destruct (method_cases m this arguments w) as [[e' ->]|[->| ->]].
    - destruct m; cbn [log_call run]; unfold mbind, M_bind, deref;
        by rewrite Hr. }
  destruct c as [args|args|r lv|r|r|r|r|r args|r args|r args|r args|r args|nm v].
  - cbn [run]. unfold mbind, M_bind.
    destruct (parameter 1 args) as [| |b|n|s|l|o]; try done; by destruct l.
  - cbn [run]. unfold logger, mbind, M_bind.
    destruct (is_string (parameter 0 args)) eqn:Hc.
    + by rewrite Logger_new_defined by done.
    + by destruct (Logger_new_not_string _ w Hc) as [e0 ->].
  - cbn [run]. unfold mbind, M_bind, deref, lift.
    destruct (heap w !! r); [|done]. by destruct (isEnabled _ _).
  - cbn [run]. unfold mbind, M_bind, deref, lift.
    destruct (heap w !! r); [|done]. by destruct (isDebugEnabled _).
  - cbn [run]. unfold mbind, M_bind, deref, lift.
    destruct (heap w !! r); [|done]. by destruct (isLogEnabled _).
  - cbn [run]. unfold mbind, M_bind, deref, lift.
    destruct (heap w !! r); [|done]. by destruct (isInfoEnabled _).
  - cbn [run]. unfold mbind, M_bind, deref, lift.
    destruct (heap w !! r); [|done]. by destruct (isWarnEnabled _).
  - apply (Hlog DEBUG).
  - apply (Hlog LOG).
  - apply (Hlog INFO).
  - apply (Hlog WARN).
  - apply (Hlog ERROR).
  - done.
Qed.

Lemma run_throw_changes_nothing_witness :
  snd (run (call_setLogLevel [VStr "a"; VStr "DEBUG"]) inherited_world)
  = inherited_world.
Proof.
  apply (run_throw_changes_nothing (call_setLogLevel [VStr "a"; VStr "DEBUG"])
           inherited_world
           (Error ("Unexpected arg type for " ++ quoted "level" ++
                   ". Expected one of the predefined Level enums."))).
  reflexivity.
Defined.

(** ** From configuration to the console *)

(** X16: after [setLogLevel(c, l)], the Logger that [logger(c)] returns
    sends a call of the method of level [m] to the console exactly when
    the precedence of [m] is at least that of [l]. *)
Lemma configured_level_gates_logging (c : string) (l m : Level)
    (arguments : list value) (w : world) :
  run_all [ call_setLogLevel [VStr c; VLevel l];
            call_logger [VStr c];
            log_call m (length (heap w)) arguments ] w =
  (Return tt,
   let w' := {| categories := <[c := id l]> (categories w);
                console := console w;
                heap := heap w ++ [{| category := VStr c; logLevel := VLevel l |}] |} in
   if bool_decide (precedence l ≤ precedence m)%Z
   then logged (console_of m)
          (apply_list (logArgs m (VStr c) (arguments_of arguments))) w'
   else w').
Proof.
  cbn [run_all]. unfold mbind at 1, M_bind at 1.
  assert (run (call_setLogLevel [VStr c; VLevel l]) w =
          (Return a_undefined,
           {| categories := <[c := id l]> (categories w);
              console := console w; heap := heap w |})) as ->.
  { cbn [run]. unfold mbind, M_bind.
    change (parameter 0 [VStr c; VLevel l]) with (VStr c).
    change (parameter 1 [VStr c; VLevel l]) with (VLevel l).
    by rewrite setLogLevel_Level. }
  set (w1 := {| categories := <[c := id l]> (categories w);
                console := console w; heap := heap w |}).
  unfold mbind at 1, M_bind at 1.
  assert (run (call_logger [VStr c]) w1 =
          (Return (a_logger (length (heap w))),
           {| categories := <[c := id l]> (categories w);
              console := console w;
              heap := heap w ++ [{| category := VStr c; logLevel := VLevel l |}] |}))
    as ->.
  { cbn [run]. unfold logger, mbind, M_bind.
    change (parameter 0 [VStr c]) with (VStr c).
    rewrite (Logger_new_own_value (VStr c) (id l));
      [|reflexivity|apply lookup_insert_eq|apply id_set].
    rewrite (level_for_level_id _ l) by apply level_of_id_id.
    replace (negb (truthy (VStr (id l))) || negb (truthy (Level_get (VStr (id l)))))
      with false by by destruct l.
    reflexivity. }
  set (w2 := {| categories := <[c := id l]> (categories w);
                console := console w;
                heap := heap w ++ [{| category := VStr c; logLevel := VLevel l |}] |}).
  unfold mbind at 1, M_bind at 1.
  rewrite (run_method (length (heap w))
             {| category := VStr c; logLevel := VLevel l |})
    by (cbn [heap w2]; by rewrite lookup_app_r, Nat.sub_diag).
  destruct m, l; reflexivity.
Qed.

(** ** The table of levels *)

(** X17: the id of each level reads back as that level from [Level];
    ids and precedences are unique, [DEBUG] has the least precedence and
    [ERROR] the greatest. *)
Lemma Level_table (l l' : Level) :
  Level_get (VStr (id l)) = VLevel l ∧
  (id l = id l' → l = l') ∧
  (precedence l = precedence l' → l = l') ∧
  (precedence DEBUG ≤ precedence l ≤ precedence ERROR)%Z.
Proof.
  split; [by destruct l|]. split; [|split].
  - intros H. apply (f_equal level_of_id) in H.
    rewrite !level_of_id_id in H. by injection H.
  - by destruct l, l'.
  - destruct l; cbn; lia.
Qed.

(** ** The console fallbacks *)

Lemma fallback_to_log_at (f g : console_function) (k : console_object) :
  fallback_to_log f k g
  = if decide (g = f)
    then match k f with Some h => Some h | None => k c_log end
    else k g.
Proof.
  unfold fallback_to_log, assign.
  destruct (k f) eqn:Hk; case_decide; by subst.
Qed.

(** X18: after the package has loaded, a console property that held a
    function holds the same one, and a missing one holds what
    [console.log] holds; loading again changes nothing. *)
Lemma console_fallbacks (console : console_object) (f : console_function) :
  install_console_fallbacks console f
  = match console f with Some g => Some g | None => console c_log end
  ∧ install_console_fallbacks (install_console_fallbacks console) f
    = install_console_fallbacks console f.
Proof.
  assert (∀ k g, install_console_fallbacks k g
                 = match k g with Some h => Some h | None => k c_log end) as Hchar.
  { intros k g. unfold install_console_fallbacks.
    rewrite !fallback_to_log_at.
    destruct g; repeat case_decide; try done; by destruct (k c_log). }
  split; [apply Hchar|].
  rewrite (Hchar (install_console_fallbacks console) f).
  rewrite (Hchar console f), (Hchar console c_log).
  destruct (console f); [reflexivity|]. by destruct (console c_log).
Qed.

Example bare_console_after_loading (f : console_function) :
  install_console_fallbacks bare_console f = Some c_log.
Proof. by destruct f. Qed.

(** ** A spurious value *)

(** X19: a value stored for the category itself that names no property
    of [Level] is replaced by [ERROR], which is the level of the Logger. *)
Lemma spurious_value_replaced (c v : string) (w : world) :
  categories w !! c = Some v →
  unset (Some v) = false →
  Level_get (VStr v) = VUndefined →
  Logger_new (VStr c) w =
  (Return {| category := VStr c; logLevel := VLevel ERROR |},
   {| categories := <[c := id ERROR]> (categories w);
      console := console w; heap := heap w |}).
Proof.
  intros Hv Hset Hno.
  rewrite (Logger_new_own_value (VStr c) v) by done.
  rewrite level_for_no_property by done.
  rewrite Hno. cbn [truthy negb to_string]. by rewrite orb_true_r.
Qed.

Lemma spurious_value_replaced_witness :
  Logger_new (VStr "a.b") shadowed_world =
  (Return {| category := VStr "a.b"; logLevel := VLevel ERROR |},
   {| categories := <["a.b" := id ERROR]> (categories shadowed_world);
      console := []; heap := [] |}).
Proof.
  apply (spurious_value_replaced "a.b" "FOO" shadowed_world); reflexivity.
Defined.
